(** * Envelope_divide_and_conquer_2

    A shallow embedding of [CGAL/Envelope_2/Env_divide_and_conquer_2.h]:
    the class [Envelope_divide_and_conquer_2<Traits_, Diagram_>] that
    computes the lower or upper envelope of a set of planar curves.

    The header defines the constructors, the destructor, [insert_curves],
    [insert_x_monotone_curves], [get_traits] and the functor
    [Vertical_strict_weak_ordering]; it only declares the protected members
    ([_construct_envelope_non_vertical], [_merge_envelopes],
    [_compare_vertices], [_merge_two_intervals], [_append_vertex],
    [_merge_vertical_segments], ...), whose bodies live in
    [Env_divide_and_conquer_2_impl.h]. *)

From Stdlib Require Import ZArith List Lia.
From stdpp Require Import gmap list.
From Equations Require Import Equations.
Import ListNotations.

Set Default Proof Using "Type".

(** ** Enumerations *)

(** [enum Envelope_type { LOWER, UPPER }]. *)
Inductive Envelope_type : Type := LOWER | UPPER.

(** CGAL's [Comparison_result]. *)
Inductive Comparison_result : Type := SMALLER | EQUAL | LARGER.

#[global] Instance Envelope_type_eq_dec : EqDecision Envelope_type.
Proof. solve_decision. Defined.

#[global] Instance Comparison_result_eq_dec : EqDecision Comparison_result.
Proof. solve_decision. Defined.

(** ** The traits template parameter

    [CGAL::Object] is a polymorphic wrapper; the objects written by
    [make_x_monotone_2] wrap either an x-monotone curve or an isolated
    point.  [CGAL::assign (xcv, obj)] succeeds exactly on the former. *)

Inductive Object (P X : Type) : Type :=
| Object_x_monotone_curve (xcv : X)
| Object_point (p : P).
Arguments Object_x_monotone_curve {P X} xcv.
Arguments Object_point {P X} p.

Definition assign {P X : Type} (obj : Object P X) : option X :=
  match obj with
  | Object_x_monotone_curve xcv => Some xcv
  | Object_point _ => None
  end.

(** The operations of [Traits_2] that the header (and the documented
    contracts of its protected members) use.  Traits objects are stateless
    function-object factories, so the operations are plain functions. *)
Class Traits_2 : Type := {
  Point_2 : Type;
  X_monotone_curve_2 : Type;
  Curve_2 : Type;
  make_x_monotone_2 : Curve_2 -> list (Object Point_2 X_monotone_curve_2);
  is_vertical_2 : X_monotone_curve_2 -> bool;
  compare_x_2 : Point_2 -> Point_2 -> Comparison_result;
  compare_xy_2 : Point_2 -> Point_2 -> Comparison_result;
  construct_min_vertex_2 : X_monotone_curve_2 -> Point_2;
  construct_max_vertex_2 : X_monotone_curve_2 -> Point_2
}.

(** ** The data members of an algorithm object *)

(** Addresses of traits objects ([Traits_2 *]). *)
Definition Traits_ptr : Type := nat.

(** [traits], [own_traits], [env_type]. *)
Record Self : Type := mkSelf {
  traits : Traits_ptr;
  own_traits : bool;
  env_type : Envelope_type
}.

Definition set_env_type (type : Envelope_type) (this : Self) : Self :=
  {| traits := traits this; own_traits := own_traits this; env_type := type |}.

(** [Traits_2* get_traits () const]. *)
Definition get_traits (this : Self) : Traits_ptr := traits this.

(** ** Construction of the diagram: [insert_curves] and
       [insert_x_monotone_curves] *)

(** [X_monotone_curve_2 *]: the pointers pushed on the two lists are the
    addresses [&( *iter)] of the elements of the input range, that is, their
    positions in it. *)
Definition Curve_pointer : Type := nat.
Definition Curve_pointer_list : Type := list Curve_pointer.

(** The two protected members that [insert_x_monotone_curves] calls.  The
    header declares them only; they read [env_type] from the object and the
    curves through the pointers into the input range, and work on the
    diagram [out_d] they are given; they are taken to leave the data
    members of the object as they are.  [Envelope_diagram_1] is the
    [Diagram_] template parameter. *)
Class Declared_members `{Tr : Traits_2} (Envelope_diagram_1 : Type) : Type := {
  _construct_envelope_non_vertical :
    Envelope_type -> list X_monotone_curve_2 -> Curve_pointer_list ->
    Envelope_diagram_1 -> Envelope_diagram_1;
  _merge_vertical_segments :
    Envelope_type -> list X_monotone_curve_2 -> Curve_pointer_list ->
    Envelope_diagram_1 -> Envelope_diagram_1
}.

(** The test of the inner loop of [insert_curves] reads
    [CGAL::assign (xcv, *obj_itr)].  No declaration of [obj_itr] is in
    scope there: the loop variable is [obj_it].  The object that [*obj_itr]
    stands for while the loop variable is at a given object is therefore a
    parameter: the identity if [obj_itr] is read as [obj_it], a constant if
    it is an iterator of some other scope. *)
Class Undeclared_names `{Tr : Traits_2} : Type := {
  obj_itr :
    Object Point_2 X_monotone_curve_2 -> Object Point_2 X_monotone_curve_2
}.

Section Construction.

Context `{Tr : Traits_2} {Envelope_diagram_1 : Type}.
Context `{Members : !Declared_members Envelope_diagram_1}.
Context `{Names : !Undeclared_names}.

(** The calls a run makes, in order. *)
Inductive Call : Type :=
| Call_make_x_monotone (cv : Curve_2)
| Call_construct_envelope_non_vertical (reg_list : Curve_pointer_list)
| Call_merge_vertical_segments (vert_list : Curve_pointer_list).

(** The object, the output diagram and the calls made so far. *)
Record State : Type := mkState {
  this : Self;
  diagram : Envelope_diagram_1;
  calls : list Call
}.

(** The loop [for (iter = begin; iter != end; ++iter)] of
    [insert_x_monotone_curves]: [iter] is the position reached, [rest] the
    part of the range from there on. *)
Fixpoint separate (iter : Curve_pointer) (rest : list X_monotone_curve_2)
    (reg_list vert_list : Curve_pointer_list)
  : Curve_pointer_list * Curve_pointer_list :=
  match rest with
  | [] => (reg_list, vert_list)
  | xcv :: rest' =>
      if is_vertical_2 xcv
      then separate (S iter) rest' reg_list (vert_list ++ [iter])
      else separate (S iter) rest' (reg_list ++ [iter]) vert_list
  end.

Definition insert_x_monotone_curves
    (range : list X_monotone_curve_2) (type : Envelope_type) (st : State)
  : State :=
  (* Set the envelope type. *)
  let this1 := set_env_type type (this st) in
  (* Separate the regular curves from the vertical ones. *)
  let '(reg_list, vert_list) := separate 0 range [] [] in
  (* Construct the envelope for the non-vertical curves. *)
  let diagram1 :=
    _construct_envelope_non_vertical (env_type this1) range reg_list
      (diagram st) in
  let calls1 :=
    calls st ++ [Call_construct_envelope_non_vertical reg_list] in
  (* Merge the vertical segments. *)
  if 0 <? length vert_list
  then {| this := this1;
          diagram :=
            _merge_vertical_segments (env_type this1) range vert_list
              diagram1;
          calls := calls1 ++ [Call_merge_vertical_segments vert_list] |}
  else {| this := this1; diagram := diagram1; calls := calls1 |}.

(** The inner loop of [insert_curves] over [objects]: [obj] is the object
    that the loop variable [obj_it] is at, and the test is on [*obj_itr]. *)
Fixpoint collect (objects : list (Object Point_2 X_monotone_curve_2))
    (x_curves : list X_monotone_curve_2) : list X_monotone_curve_2 :=
  match objects with
  | [] => x_curves
  | obj :: objects' =>
      match assign (obj_itr obj) with
      | Some xcv => collect objects' (x_curves ++ [xcv])
      | None => collect objects' x_curves
      end
  end.

(** The outer loop of [insert_curves]: [objects] is cleared and refilled
    for every curve. *)
Fixpoint subdivide (curves : list Curve_2)
    (x_curves : list X_monotone_curve_2) (log : list Call)
  : list X_monotone_curve_2 * list Call :=
  match curves with
  | [] => (x_curves, log)
  | cv :: curves' =>
      let objects := [] ++ make_x_monotone_2 cv in
      subdivide curves' (collect objects x_curves)
        (log ++ [Call_make_x_monotone cv])
  end.

Definition insert_curves
    (curves : list Curve_2) (type : Envelope_type) (st : State) : State :=
  let '(x_curves, log) := subdivide curves [] (calls st) in
  insert_x_monotone_curves x_curves type
    {| this := this st; diagram := diagram st; calls := log |}.

(** *** The two functions in the words of their documentation *)

(** The positions, from [iter] on, of the curves of [rest] that [keep]
    selects. *)
Fixpoint positions (keep : X_monotone_curve_2 -> bool) (iter : nat)
    (rest : list X_monotone_curve_2) : list nat :=
  match rest with
  | [] => []
  | xcv :: rest' =>
      if keep xcv
      then iter :: positions keep (S iter) rest'
      else positions keep (S iter) rest'
  end.

Definition regular (xcv : X_monotone_curve_2) : bool :=
  negb (is_vertical_2 xcv).

(** The x-monotone curves among the objects that [make_x_monotone_2]
    returns for each curve, curve by curve. *)
Definition x_monotone_subcurves (curves : list Curve_2)
  : list X_monotone_curve_2 :=
  flat_map (λ cv, omap assign (make_x_monotone_2 cv)) curves.

(** The curves that [*obj_itr] holds, for each object that
    [make_x_monotone_2] returns, curve by curve. *)
Definition collected_subcurves (curves : list Curve_2)
  : list X_monotone_curve_2 :=
  flat_map (λ cv, omap (λ obj, assign (obj_itr obj)) (make_x_monotone_2 cv))
    curves.

End Construction.

Arguments State {Tr} Envelope_diagram_1.

(** ** The functor [Vertical_strict_weak_ordering] *)

(** The argument type of the functor, with its member [xcv]. *)
Record M_curve_2 `{Tr : Traits_2} : Type := mkM_curve_2 {
  xcv : X_monotone_curve_2
}.

(** [bool operator() (const M_curve_2 *mcv1, const M_curve_2 *mcv2) const]:
    the comparison of the two minimal vertices is commented out (marked
    [RWRW!]) and the body is [return (true);]. *)
Definition Vertical_strict_weak_ordering `{Tr : Traits_2}
    (mcv1 mcv2 : M_curve_2) : bool :=
  true.

(** What the class documentation asks of the functor ("a functor used to
    sort vertical segments by their x-coordinate"): [mcv1] comes before
    [mcv2] when the x-coordinate of its endpoint is the smaller one. *)
Definition smaller_x `{Tr : Traits_2} (mcv1 mcv2 : M_curve_2) : Prop :=
  compare_x_2 (construct_min_vertex_2 (xcv mcv1))
              (construct_min_vertex_2 (xcv mcv2)) = SMALLER.

(** ** Constructors and destructor: who owns the traits object *)

Module Ownership.

(** The free store as far as traits objects go.  A [Traits_ptr] in it
    names a traits object rather than a machine address: the objects are
    numbered in the order in which [new] creates them, [next_addr] being
    the next number, so that an address which operator new hands out again
    counts as a new object. *)
Record Heap : Type := mkHeap {
  next_addr : Traits_ptr;
  allocated : gset Traits_ptr;
  deleted : list Traits_ptr
}.

(** [new Traits_2]. *)
Definition new_Traits_2 (h : Heap) : Traits_ptr * Heap :=
  (next_addr h,
   {| next_addr := S (next_addr h);
      allocated := {[next_addr h]} ∪ allocated h;
      deleted := deleted h |}).

(** [delete traits]: the call is recorded in [deleted]. *)
Definition delete_Traits_2 (p : Traits_ptr) (h : Heap) : Heap :=
  {| next_addr := next_addr h;
     allocated := allocated h ∖ {[p]};
     deleted := deleted h ++ [p] |}.

(** [Envelope_divide_and_conquer_2 ()]. *)
Definition constructor_default (h : Heap) : Self * Heap :=
  let '(p, h') := new_Traits_2 h in
  ({| traits := p; own_traits := true; env_type := LOWER |}, h').

(** [Envelope_divide_and_conquer_2 (const Traits_2* _traits)]. *)
Definition constructor_traits (_traits : Traits_ptr) (h : Heap)
  : Self * Heap :=
  ({| traits := _traits; own_traits := false; env_type := LOWER |}, h).

(** [~Envelope_divide_and_conquer_2 ()]. *)
Definition destructor (this : Self) (h : Heap) : Heap :=
  if own_traits this then delete_Traits_2 (traits this) h else h.

(** The public interface of the class, as a client program can use it.
    The copy constructor and [operator=] are private and have no body, so
    there is no operation that makes an object out of another one. *)
Inductive Operation : Type :=
| Op_constructor_default
| Op_constructor_traits (_traits : Traits_ptr)
| Op_destructor (obj : nat)
| Op_insert_curves (obj : nat) (type : Envelope_type)
| Op_insert_x_monotone_curves (obj : nat) (type : Envelope_type)
| Op_get_traits (obj : nat).

(** The live algorithm objects of a client program, by object identity. *)
Record World : Type := mkWorld {
  heap : Heap;
  live : gmap nat Self;
  next_obj : nat
}.

Definition initial_world : World :=
  {| heap := {| next_addr := 0; allocated := ∅; deleted := [] |};
     live := ∅;
     next_obj := 0 |}.

(** One operation of the client.  Constructors make a new object; the
    destructor ends the life of one.  The two insert functions change the
    object by [env_type = type] only (the diagrams and curves they work on
    play no part here); [get_traits] is [const].  The pointer given to the
    second constructor is any address, among them those that [get_traits]
    returned. *)
Definition step (w : World) (op : Operation) : World :=
  match op with
  | Op_constructor_default =>
      let '(s, h) := constructor_default (heap w) in
      {| heap := h;
         live := <[next_obj w := s]> (live w);
         next_obj := S (next_obj w) |}
  | Op_constructor_traits _traits =>
      let '(s, h) := constructor_traits _traits (heap w) in
      {| heap := h;
         live := <[next_obj w := s]> (live w);
         next_obj := S (next_obj w) |}
  | Op_destructor obj =>
      match live w !! obj with
      | Some s =>
          {| heap := destructor s (heap w);
             live := delete obj (live w);
             next_obj := next_obj w |}
      | None => w
      end
  | Op_insert_curves obj type
  | Op_insert_x_monotone_curves obj type =>
      {| heap := heap w;
         live := alter (set_env_type type) obj (live w);
         next_obj := next_obj w |}
  | Op_get_traits obj => w
  end.

Definition run (ops : list Operation) : World :=
  fold_left step ops initial_world.

(** No live object shares the traits pointer of a live owning object. *)
Definition owned_traits_never_shared (w : World) : Prop :=
  ∀ i j si sj,
    i ≠ j → live w !! i = Some si → live w !! j = Some sj →
    own_traits si = true → traits si ≠ traits sj.

(** No two live owning objects have the same traits pointer. *)
Definition owners_have_distinct_traits (w : World) : Prop :=
  ∀ i j si sj,
    i ≠ j → live w !! i = Some si → live w !! j = Some sj →
    own_traits si = true → own_traits sj = true → traits si ≠ traits sj.

(** No traits object is deleted twice. *)
Definition deleted_at_most_once (w : World) : Prop :=
  NoDup (deleted (heap w)).

(** A client program: it constructs an object with the default
    constructor, asks it for its traits with [get_traits], and constructs
    a second object from the pointer it got (the address [0], the first
    that [new] hands out). *)
Definition borrowing_program : list Operation :=
  [Op_constructor_default; Op_get_traits 0; Op_constructor_traits 0].

(** What holds of the worlds a client program can reach. *)
Record invariant (w : World) : Prop := mkInvariant {
  inv_owned_fresh : ∀ i s,
    live w !! i = Some s → own_traits s = true →
    traits s < next_addr (heap w) ∧ traits s ∉ deleted (heap w);
  inv_distinct : owners_have_distinct_traits w;
  inv_deleted_bound : ∀ p, p ∈ deleted (heap w) → p < next_addr (heap w);
  inv_deleted_NoDup : NoDup (deleted (heap w));
  inv_live_bound : ∀ i s, live w !! i = Some s → i < next_obj w
}.

End Ownership.

(** *** The free store and the live objects together *)

Module Ownership_store.

Import Ownership.

(** The live object [i] owns the traits object at [p]. *)
Definition owned_by (w : World) (p : Traits_ptr) (i : nat) : Prop :=
  ∃ s, live w !! i = Some s ∧ own_traits s = true ∧ traits s = p.

(** How the free store stands to the live objects: the traits objects
    allocated are those that a live object owns, and every traits object
    that [new] has created is allocated or has been deleted. *)
Record store_invariant (w : World) : Prop := mkStore_invariant {
  store_allocated : ∀ p, p ∈ allocated (heap w) ↔ ∃ i, owned_by w p i;
  store_accounting : ∀ p,
    p < next_addr (heap w) ↔ p ∈ allocated (heap w) ∨ p ∈ deleted (heap w)
}.

(** No operation of the program is a call of the default constructor. *)
Definition only_borrows (ops : list Operation) : Prop :=
  Forall (λ op, op ≠ Op_constructor_default) ops.

End Ownership_store.

(** ** The members whose bodies are not in the header *)

Section Protected_members.

Context `{Tr : Traits_2}.

(** Modelled from the spec: the diagram type ([Env_default_diagram_1], the
    default of the [Diagram_] parameter, is not part of this header).  A
    diagram is an ordered alternating sequence edge, vertex, edge, ...,
    vertex, edge; an edge holds a possibly empty set of curves, a vertex a
    point.  [d_left] lists each edge that has a vertex to its right,
    together with that vertex; [d_rightmost] is the last, unbounded
    edge. *)
Definition Edge : Type := list X_monotone_curve_2.
Definition Vertex : Type := Point_2.

Record Diagram : Type := mkDiagram {
  d_left : list (Edge * Vertex);
  d_rightmost : Edge
}.

Definition diagram_edges (d : Diagram) : list Edge :=
  map fst (d_left d) ++ [d_rightmost d].

Definition diagram_vertices (d : Diagram) : list Vertex :=
  map snd (d_left d).

(** Modelled from the spec: the empty diagram (its construction belongs to
    the diagram type): a single unbounded edge with an empty curve set and
    no vertices. *)
Definition empty_diagram : Diagram :=
  {| d_left := []; d_rightmost := [] |}.

(** Curve sets are compared as sets. *)
Context `{Eq_curves : EqDecision X_monotone_curve_2}.

Definition same_curves (e e' : Edge) : bool :=
  bool_decide (e ⊆ e') && bool_decide (e' ⊆ e).

(** Modelled from the spec: the body of [_append_vertex] (declared in the
    header, defined in [Env_divide_and_conquer_2_impl.h]), from the
    contract documented at its declaration and the append rule of the
    merger.  The new vertex represents the given point as the new rightmost
    vertex of the diagram, and the edge that ends at it contains the same
    curves as the input edge.  The new edge is merged into the previous
    output edge if its curve set is identical: the vertex that would
    separate the two is not kept, and the previous edge reaches the new
    vertex.  Otherwise a new vertex is created after the previous one. *)
Definition _append_vertex (diag : Diagram) (p : Point_2) (e : Edge)
  : Diagram :=
  match last (d_left diag) with
  | Some (e_prev, v_prev) =>
      if same_curves e_prev e
      then {| d_left := removelast (d_left diag) ++ [(e_prev, p)];
              d_rightmost := [] |}
      else {| d_left := d_left diag ++ [(e, p)]; d_rightmost := [] |}
  | None => {| d_left := d_left diag ++ [(e, p)]; d_rightmost := [] |}
  end.

(** Modelled from the spec: the body of [_compare_vertices] (declared in
    the header, defined in [Env_divide_and_conquer_2_impl.h]), from the
    contract documented at its declaration and the tie-break rule of the
    spec: the vertices compare by x; at equal x they compare by y, the
    smaller y coming first for the lower envelope and the larger y for the
    upper one.  The second component is the output parameter [same_x]. *)
Definition _compare_vertices (this : Self) (v1 v2 : Vertex)
  : Comparison_result * bool :=
  match compare_x_2 v1 v2 with
  | SMALLER => (SMALLER, false)
  | LARGER => (LARGER, false)
  | EQUAL =>
      match compare_xy_2 v1 v2, env_type this with
      | EQUAL, _ => (EQUAL, true)
      | SMALLER, LOWER | LARGER, UPPER => (SMALLER, true)
      | SMALLER, UPPER | LARGER, LOWER => (LARGER, true)
      end
  end.

(** *** The divide-and-conquer driver *)

(** The singleton builder and the merger are declared in the header and
    defined elsewhere; the driver only calls them. *)
Variable _construct_singleton_diagram : X_monotone_curve_2 -> Diagram.
Variable _merge_envelopes : Envelope_type -> Diagram -> Diagram -> Diagram.

(** Modelled from the spec: the body of [_construct_envelope_non_vertical]
    (declared in the header, defined in
    [Env_divide_and_conquer_2_impl.h]).  0 curves give the empty diagram, 1
    curve the singleton diagram; otherwise the collection is split by
    position into two halves of nearly equal size, the function recurses
    on each half and merges the two sub-diagrams. *)
Equations? construct_envelope (type : Envelope_type)
    (curves : list X_monotone_curve_2) : Diagram
  by wf (length curves) lt :=
  construct_envelope type [] := empty_diagram;
  construct_envelope type [cv] := _construct_singleton_diagram cv;
  construct_envelope type (cv1 :: cv2 :: rest) :=
    let curves := cv1 :: cv2 :: rest in
    let half := length curves / 2 in
    _merge_envelopes type
      (construct_envelope type (take half curves))
      (construct_envelope type (drop half curves)).
Proof.
  all: assert (Hhalf : half = S (S (length rest)) / 2) by reflexivity.
  all: clearbody half; subst half curves; cbn [length].
  - rewrite length_take. cbn [length].
    assert (S (S (length rest)) / 2 < S (S (length rest)))
      by (apply Nat.div_lt; lia).
    lia.
  - rewrite length_drop. cbn [length].
    assert (0 < S (S (length rest)) / 2)
      by (apply Nat.div_str_pos; lia).
    lia.
Qed.

(** The curves the pointers of a list point to in the input range. *)
Definition dereference (range : list X_monotone_curve_2)
    (pointers : Curve_pointer_list) : list X_monotone_curve_2 :=
  omap (fun p => range !! p) pointers.

(** The declared members over [Diagram]:
    [_construct_envelope_non_vertical (begin, end, out_d)] runs the driver
    on the curves that the pointers of the list point to, and its result
    replaces the contents of [out_d]; the vertical-segment merger stays a
    parameter. *)
Variable merge_vertical_segments :
  Envelope_type -> list X_monotone_curve_2 -> Curve_pointer_list ->
  Diagram -> Diagram.

Definition driver_members : Declared_members Diagram :=
  {| _construct_envelope_non_vertical type range reg_list out_d :=
       construct_envelope type (dereference range reg_list);
     _merge_vertical_segments := merge_vertical_segments |}.

(** *** Merging two non-empty intervals *)

(** An x-interval, by the vertices that bound it; [None] is an unbounded
    side. *)
Definition Interval : Type := option Vertex * option Vertex.

(** The traits comparison of two curve sets at a representative x of an
    interval, and the crossing points of two curve sets inside an
    interval, from left to right, as the traits intersection operation
    produces them. *)
Variable compare_at_x : Edge -> Edge -> Interval -> Comparison_result.
Variable crossings : Edge -> Edge -> Interval -> list Point_2.

(** Modelled from the spec: the classification of one sub-interval in the
    two-interval case.  The winner's curve set becomes the output edge's
    curve set (the smaller side wins for the lower envelope, the larger
    one for the upper envelope); if the comparison yields equality the
    output edge's curve set is the union of both. *)
Definition merged_curves (type : Envelope_type) (e1 e2 : Edge)
    (res : Comparison_result) : Edge :=
  match res, type with
  | EQUAL, _ => e1 ++ e2
  | SMALLER, LOWER | LARGER, UPPER => e1
  | SMALLER, UPPER | LARGER, LOWER => e2
  end.

Definition rightmost_vertex (d : Diagram) : option Vertex :=
  last (diagram_vertices d).

Definition set_rightmost (d : Diagram) (e : Edge) : Diagram :=
  {| d_left := d_left d; d_rightmost := e |}.

(** Modelled from the spec: the append rule for the last output edge, which
    has no vertex to its right.  It is merged into the previous output edge
    if its curve set is identical, and the vertex between the two is not
    kept; otherwise it becomes the rightmost edge after the last vertex. *)
Definition append_rightmost (diag : Diagram) (e : Edge) : Diagram :=
  match last (d_left diag) with
  | Some (e_prev, v_prev) =>
      if same_curves e_prev e
      then {| d_left := removelast (d_left diag); d_rightmost := e_prev |}
      else set_rightmost diag e
  | None => set_rightmost diag e
  end.


(** Modelled from the spec: the sweep over the sub-intervals of the
    two-interval case.  Each sub-interval is classified independently and
    its edge is appended, with the crossing that ends it, by the append
    rule: a new vertex is inserted at a crossing unless the edges on its
    two sides have identical curve sets.  The last sub-interval ends at the
    next vertex, if there is one, and is the unbounded rightmost edge
    otherwise. *)
Fixpoint merge_sub_intervals (type : Envelope_type) (e1 e2 : Edge)
    (left : option Vertex) (cross : list Point_2) (right : option Vertex)
    (out_d : Diagram) : Diagram :=
  match cross with
  | [] =>
      let e := merged_curves type e1 e2 (compare_at_x e1 e2 (left, right)) in
      match right with
      | Some v => _append_vertex out_d v e
      | None => append_rightmost out_d e
      end
  | p :: cross' =>
      let e :=
        merged_curves type e1 e2 (compare_at_x e1 e2 (left, Some p)) in
      merge_sub_intervals type e1 e2 (Some p) cross' right
        (_append_vertex out_d p e)
  end.

(** Modelled from the spec: the body of [_merge_two_intervals] (declared
    in the header, defined in [Env_divide_and_conquer_2_impl.h]).  The
    interval runs from the rightmost vertex of the merged diagram built so
    far to the next vertex [v], if it exists; it is split at the crossing
    points of the two edges and every sub-interval is classified.  The spec
    gives [is_leftmost1], [is_leftmost2] and [org_v] no part in this. *)
Definition _merge_two_intervals (this : Self)
    (e1 : Edge) (is_leftmost1 : bool) (e2 : Edge) (is_leftmost2 : bool)
    (v : Vertex) (v_exists : bool) (org_v : nat) (out_d : Diagram)
  : Diagram :=
  let left := rightmost_vertex out_d in
  let right := if v_exists then Some v else None in
  merge_sub_intervals (env_type this) e1 e2 left
    (crossings e1 e2 (left, right)) right out_d.

End Protected_members.

Arguments Edge {Tr}.
Arguments Vertex {Tr}.
Arguments Interval {Tr}.
Arguments Diagram {Tr}.
Arguments mkDiagram {Tr} d_left d_rightmost.
Arguments d_left {Tr} d.
Arguments d_rightmost {Tr} d.
Arguments empty_diagram {Tr}.

(** ** Coordinates of points

    The class compares points through the traits only.  The contracts of
    the protected members are worded with the coordinates x(v) and y(v) of a
    vertex; [Coordinates] says what the two point comparisons of the traits
    mean in terms of them.  [NT] is the number type, [NT_lt] its order. *)
Class Coordinates `{Tr : Traits_2} : Type := {
  NT : Type;
  NT_lt : NT -> NT -> Prop;
  x_of : Point_2 -> NT;
  y_of : Point_2 -> NT;
  compare_x_2_SMALLER : ∀ p q,
    compare_x_2 p q = SMALLER ↔ NT_lt (x_of p) (x_of q);
  compare_x_2_EQUAL : ∀ p q,
    compare_x_2 p q = EQUAL ↔ x_of p = x_of q;
  compare_x_2_LARGER : ∀ p q,
    compare_x_2 p q = LARGER ↔ NT_lt (x_of q) (x_of p);
  compare_xy_2_SMALLER : ∀ p q,
    compare_xy_2 p q = SMALLER ↔
    NT_lt (x_of p) (x_of q) ∨ (x_of p = x_of q ∧ NT_lt (y_of p) (y_of q));
  compare_xy_2_EQUAL : ∀ p q,
    compare_xy_2 p q = EQUAL ↔ p = q;
  compare_xy_2_LARGER : ∀ p q,
    compare_xy_2 p q = LARGER ↔
    NT_lt (x_of q) (x_of p) ∨ (x_of p = x_of q ∧ NT_lt (y_of q) (y_of p))
}.

(** ** A traits model: segments with integer endpoints

    Used to run the definitions on concrete inputs. *)
Module Segment_traits.

Definition Point : Type := Z * Z.
Definition Segment : Type := Point * Point.

Definition compare_Z (a b : Z) : Comparison_result :=
  match (a ?= b)%Z with
  | Lt => SMALLER
  | Eq => EQUAL
  | Gt => LARGER
  end.

Definition compare_x (p q : Point) : Comparison_result :=
  compare_Z p.1 q.1.

Definition compare_xy (p q : Point) : Comparison_result :=
  match compare_x p q with
  | EQUAL => compare_Z p.2 q.2
  | res => res
  end.

Definition is_vertical (s : Segment) : bool := (s.1.1 =? s.2.1)%Z.

Definition min_vertex (s : Segment) : Point :=
  match compare_xy s.1 s.2 with
  | LARGER => s.2
  | _ => s.1
  end.

Definition max_vertex (s : Segment) : Point :=
  match compare_xy s.1 s.2 with
  | LARGER => s.1
  | _ => s.2
  end.

(** An input curve is a segment given by two points; when they coincide
    the curve degenerates to an isolated point. *)
Definition make_x_monotone (cv : Segment) : list (Object Point Segment) :=
  if decide (cv.1 = cv.2)
  then [Object_point cv.1]
  else [Object_x_monotone_curve cv].

#[export] Instance segments : Traits_2 := {|
  Point_2 := Point;
  X_monotone_curve_2 := Segment;
  Curve_2 := Segment;
  make_x_monotone_2 := make_x_monotone;
  is_vertical_2 := is_vertical;
  compare_x_2 := compare_x;
  compare_xy_2 := compare_xy;
  construct_min_vertex_2 := min_vertex;
  construct_max_vertex_2 := max_vertex
|}.

(** A singleton builder, a merger and a vertical-segment merger to run
    the callers with: the first lists the curve between its endpoints,
    the other two record their arguments in the rightmost edge. *)
Definition singleton (cv : Segment) : @Diagram segments :=
  {| d_left := [([], min_vertex cv); ([cv], max_vertex cv)];
     d_rightmost := [] |}.

Definition merge (type : Envelope_type) (d1 d2 : @Diagram segments)
  : @Diagram segments :=
  {| d_left := d_left d1 ++ d_left d2;
     d_rightmost := d_rightmost d1 ++ d_rightmost d2 |}.

Definition merge_vertical (type : Envelope_type) (range : list Segment)
    (vert_list : Curve_pointer_list) (d : @Diagram segments)
  : @Diagram segments :=
  {| d_left := d_left d;
     d_rightmost := d_rightmost d ++ dereference range vert_list |}.

(** Two edges that cross at the point (2,2): they are compared as equal
    to the left of it and the first is the smaller one to its right. *)
Definition crossing_at_2 (e1 e2 : @Edge segments) (i : @Interval segments)
  : list Point :=
  [(2, 2)%Z].

Definition equal_left_of_2 (e1 e2 : @Edge segments) (i : @Interval segments)
  : Comparison_result :=
  match i.2 with
  | Some p => if decide (p = (2, 2)%Z) then EQUAL else SMALLER
  | None => SMALLER
  end.

Definition equal_everywhere (e1 e2 : @Edge segments)
    (i : @Interval segments) : Comparison_result :=
  EQUAL.

(** The coordinates of a point. *)
Definition x (p : Point) : Z := p.1.
Definition y (p : Point) : Z := p.2.

(** Some curves: a vertical segment at x = 3, and two segments that are
    not vertical. *)
Definition vertical_at_3 : Segment := ((3, 0), (3, 4))%Z.
Definition diagonal : Segment := ((0, 0), (4, 4))%Z.
Definition horizontal : Segment := ((0, 5), (10, 5))%Z.

(** Integer coordinates for the points of the segment traits. *)
#[export] Instance coordinates : @Coordinates segments.
Proof.
  refine {| NT := Z; NT_lt := Z.lt; x_of := x; y_of := y |}.
  all: intros [px py] [qx qy].
  all: unfold x, y; simpl; unfold compare_xy, compare_x, compare_Z; simpl.
  all: destruct (Z.compare_spec px qx), (Z.compare_spec py qy).
  all: split; intros Hyp.
  all: first [ discriminate Hyp | reflexivity | lia
             | f_equal; lia | inversion Hyp; lia
             | left; lia | right; lia ].
Defined.

(** Two readings of the undeclared name: [obj_itr] as the loop variable
    [obj_it], and [obj_itr] as an iterator that stays at an isolated
    point. *)
Definition obj_itr_as_obj_it : @Undeclared_names segments :=
  {| obj_itr obj := obj |}.

Definition obj_itr_at_a_point : @Undeclared_names segments :=
  {| obj_itr obj := Object_point (0, 0)%Z |}.

(** The declared members, with the driver of [construct_envelope] over
    the builders above; an algorithm object as the default constructor
    leaves it; and the state before the first call, with the diagram as
    the caller constructs it. *)
Definition members : Declared_members (@Diagram segments) :=
  driver_members singleton merge merge_vertical.

Definition algorithm : Self :=
  {| traits := 0; own_traits := true; env_type := LOWER |}.

Definition start : State (@Diagram segments) :=
  {| this := algorithm; diagram := empty_diagram; calls := [] |}.

End Segment_traits.

(** * Properties *)

(** ** [insert_curves] and [insert_x_monotone_curves] *)

Section Construction_facts.

Context `{Tr : Traits_2} {Envelope_diagram_1 : Type}.
Context `{Members : !Declared_members Envelope_diagram_1}.
Context `{Names : !Undeclared_names}.

Lemma separate_positions rest : ∀ iter reg_list vert_list,
  separate iter rest reg_list vert_list =
  (reg_list ++ positions regular iter rest,
   vert_list ++ positions is_vertical_2 iter rest).
Proof.
  induction rest as [|xcv rest IH]; intros iter reg_list vert_list; simpl.
  - by rewrite !app_nil_r.
  - unfold regular at 1. destruct (is_vertical_2 xcv); simpl;
      rewrite IH, <- ?app_assoc; reflexivity.
Qed.

Lemma elem_of_positions keep rest : ∀ iter p,
  p ∈ positions keep iter rest ↔
  iter ≤ p ∧ ∃ xcv, rest !! (p - iter) = Some xcv ∧ keep xcv = true.
Proof.
  induction rest as [|xcv rest IH]; intros iter p; simpl.
  - split; [by intros ?%elem_of_nil | by intros (_ & ? & ? & _)].
  - assert (Hstep : p ∈ positions keep (S iter) rest ↔
              iter < p ∧ ∃ x, (xcv :: rest) !! (p - iter) = Some x
                               ∧ keep x = true).
    { rewrite IH. split.
      - intros (Hle & x & Hx & Hk). split; [lia|]. exists x. split; [|done].
        replace (p - iter) with (S (p - S iter)) by lia. done.
      - intros (Hlt & x & Hx & Hk). split; [lia|]. exists x. split; [|done].
        replace (p - iter) with (S (p - S iter)) in Hx by lia. done. }
    destruct (keep xcv) eqn:Hkeep.
    + rewrite elem_of_cons, Hstep. split.
      * intros [->|(Hlt & Hx)]; [|split; [lia|done]].
        split; [lia|]. exists xcv. by rewrite Nat.sub_diag.
      * intros (Hle & x & Hx & Hk).
        destruct (decide (p = iter)) as [->|Hne]; [by left|right].
        split; [lia|]. by exists x.
    + rewrite Hstep. split.
      * intros (Hlt & Hx). split; [lia|done].
      * intros (Hle & x & Hx & Hk).
        destruct (decide (p = iter)) as [->|Hne].
        -- rewrite Nat.sub_diag in Hx. simpl in Hx. congruence.
        -- split; [lia|]. by exists x.
Qed.

Lemma positions_lower_bound keep rest iter p :
  p ∈ positions keep iter rest → iter ≤ p.
Proof. by intros (? & _)%elem_of_positions. Qed.

Lemma NoDup_positions keep rest : ∀ iter, NoDup (positions keep iter rest).
Proof.
  induction rest as [|xcv rest IH]; intros iter; simpl.
  - constructor.
  - destruct (keep xcv); [|done].
    constructor; [|done].
    intros Hin%positions_lower_bound. lia.
Qed.

Lemma positions_all keep rest : ∀ iter,
  Forall (λ xcv, keep xcv = true) rest →
  positions keep iter rest = seq iter (length rest).
Proof.
  induction rest as [|xcv rest IH]; intros iter Hall; simpl; [done|].
  inversion Hall as [|? ? Hk Hrest]; subst.
  by rewrite Hk, IH.
Qed.

Lemma positions_none keep rest : ∀ iter,
  Forall (λ xcv, keep xcv = false) rest →
  positions keep iter rest = [].
Proof.
  induction rest as [|xcv rest IH]; intros iter Hall; simpl; [done|].
  inversion Hall as [|? ? Hk Hrest]; subst.
  by rewrite Hk, IH.
Qed.

Lemma collect_omap objects : ∀ x_curves,
  collect objects x_curves =
  x_curves ++ omap (λ obj, assign (obj_itr obj)) objects.
Proof.
  induction objects as [|obj objects IH]; intros x_curves; simpl.
  - by rewrite app_nil_r.
  - destruct (assign (obj_itr obj)); rewrite IH, <- ?app_assoc; reflexivity.
Qed.

Lemma subdivide_flat_map curves : ∀ x_curves log,
  subdivide curves x_curves log =
  (x_curves ++ collected_subcurves curves,
   log ++ map Call_make_x_monotone curves).
Proof.
  induction curves as [|cv curves IH]; intros x_curves log; simpl.
  - by rewrite !app_nil_r.
  - rewrite IH, collect_omap, <- !app_assoc. reflexivity.
Qed.

Lemma insert_x_monotone_curves_unfold range type st :
  insert_x_monotone_curves range type st =
  let reg_list := positions regular 0 range in
  let vert_list := positions is_vertical_2 0 range in
  let diagram1 :=
    _construct_envelope_non_vertical type range reg_list (diagram st) in
  let calls1 :=
    calls st ++ [Call_construct_envelope_non_vertical reg_list] in
  if 0 <? length vert_list
  then {| this := set_env_type type (this st);
          diagram := _merge_vertical_segments type range vert_list diagram1;
          calls := calls1 ++ [Call_merge_vertical_segments vert_list] |}
  else {| this := set_env_type type (this st);
          diagram := diagram1;
          calls := calls1 |}.
Proof.
  unfold insert_x_monotone_curves.
  rewrite separate_positions. reflexivity.
Qed.

Lemma insert_x_monotone_curves_this range type st :
  this (insert_x_monotone_curves range type st) =
  set_env_type type (this st).
Proof.
  rewrite insert_x_monotone_curves_unfold. cbv zeta.
  by destruct (0 <? _).
Qed.

Lemma insert_curves_this curves type st :
  this (insert_curves curves type st) = set_env_type type (this st).
Proof.
  unfold insert_curves. rewrite subdivide_flat_map.
  by rewrite insert_x_monotone_curves_this.
Qed.

Lemma insert_curves_unfold curves type st :
  insert_curves curves type st =
  insert_x_monotone_curves (collected_subcurves curves) type
    {| this := this st;
       diagram := diagram st;
       calls := calls st ++ map Call_make_x_monotone curves |}.
Proof.
  unfold insert_curves.
  rewrite subdivide_flat_map. reflexivity.
Qed.

Lemma collected_subcurves_obj_it curves :
  (∀ obj, obj_itr obj = obj) →
  collected_subcurves curves = x_monotone_subcurves curves.
Proof.
  intros Hread. unfold collected_subcurves, x_monotone_subcurves.
  induction curves as [|cv curves IH]; simpl; [done|].
  rewrite IH. f_equal.
  induction (make_x_monotone_2 cv) as [|obj objects IHobj]; simpl; [done|].
  rewrite Hread. destruct (assign obj); [f_equal|]; exact IHobj.
Qed.

(** C6.  [insert_x_monotone_curves] separates the pointers to the curves
    of the range into two lists: a pointer is on [vert_list] exactly when
    [is_vertical_2] holds of its curve and on [reg_list] exactly when it
    does not, and no pointer occurs twice.  Only [reg_list] goes to
    [_construct_envelope_non_vertical]; [vert_list], when it is not
    empty, goes to [_merge_vertical_segments] after that, on the diagram
    just constructed. *)
Theorem insert_x_monotone_curves_separates range type st :
  ∃ reg_list vert_list : Curve_pointer_list,
    separate 0 range [] [] = (reg_list, vert_list) ∧
    (∀ p, p ∈ vert_list ↔
          ∃ xcv, range !! p = Some xcv ∧ is_vertical_2 xcv = true) ∧
    (∀ p, p ∈ reg_list ↔
          ∃ xcv, range !! p = Some xcv ∧ is_vertical_2 xcv = false) ∧
    NoDup (reg_list ++ vert_list) ∧
    calls (insert_x_monotone_curves range type st) =
      calls st ++
      Call_construct_envelope_non_vertical reg_list ::
      match vert_list with
      | [] => []
      | _ :: _ => [Call_merge_vertical_segments vert_list]
      end ∧
    diagram (insert_x_monotone_curves range type st) =
      let diagram1 :=
        _construct_envelope_non_vertical type range reg_list (diagram st) in
      match vert_list with
      | [] => diagram1
      | _ :: _ => _merge_vertical_segments type range vert_list diagram1
      end.
Proof.
  exists (positions regular 0 range), (positions is_vertical_2 0 range).
  assert (Hvert : ∀ p, p ∈ positions is_vertical_2 0 range ↔
            ∃ xcv, range !! p = Some xcv ∧ is_vertical_2 xcv = true).
  { intros p. rewrite elem_of_positions, Nat.sub_0_r.
    split; [by intros (_ & ?)|]. intros ?. split; [lia|done]. }
  assert (Hreg : ∀ p, p ∈ positions regular 0 range ↔
            ∃ xcv, range !! p = Some xcv ∧ is_vertical_2 xcv = false).
  { intros p. rewrite elem_of_positions, Nat.sub_0_r. unfold regular.
    split.
    - intros (_ & xcv & Hx & Hk). exists xcv.
      by apply negb_true_iff in Hk.
    - intros (xcv & Hx & Hk). split; [lia|]. exists xcv.
      by rewrite Hk. }
  split; [apply separate_positions|].
  split; [exact Hvert|]. split; [exact Hreg|].
  split.
  { apply NoDup_app. split; [apply NoDup_positions|].
    split; [|apply NoDup_positions].
    intros p (xr & Hr & Hfalse)%Hreg (xv & Hv & Htrue)%Hvert. congruence. }
  rewrite insert_x_monotone_curves_unfold. cbv zeta.
  destruct (positions is_vertical_2 0 range) as [|p vert_list]; simpl.
  - done.
  - by rewrite <- app_assoc.
Qed.

(** C10.  When [is_vertical_2] is false of every curve of the range,
    [insert_x_monotone_curves] makes one call, to
    [_construct_envelope_non_vertical] with the pointers to all the
    curves, and none to [_merge_vertical_segments]; the diagram it leaves
    is the one that call returns. *)
Theorem insert_x_monotone_curves_no_vertical range type st :
  Forall (λ xcv, is_vertical_2 xcv = false) range →
  calls (insert_x_monotone_curves range type st) =
    calls st ++
    [Call_construct_envelope_non_vertical (seq 0 (length range))] ∧
  (∀ vert_list,
     Call_merge_vertical_segments vert_list ∉
     drop (length (calls st))
       (calls (insert_x_monotone_curves range type st))) ∧
  diagram (insert_x_monotone_curves range type st) =
    _construct_envelope_non_vertical type range (seq 0 (length range))
      (diagram st).
Proof.
  intros Hnone.
  rewrite insert_x_monotone_curves_unfold. cbv zeta.
  rewrite (positions_none is_vertical_2 range 0 Hnone).
  rewrite (positions_all regular range 0).
  2: { eapply Forall_impl; [exact Hnone|]. intros xcv Hx. unfold regular.
       by rewrite Hx. }
  simpl. split; [done|]. split; [|done].
  intros vert_list. rewrite drop_app_length.
  intros Hin%list_elem_of_singleton. discriminate.
Qed.

End Construction_facts.

(** C2.  The inner loop of [insert_curves] decides what to collect by
    [*obj_itr], a name that the header declares nowhere, and not by the
    object that the loop is at.  Whatever [obj_itr] stands for,
    [insert_curves] calls [make_x_monotone_2] on each curve in order and
    ends as [insert_x_monotone_curves], with the same envelope type, object
    and output diagram, on the curves it has collected; but these are the
    curves that [*obj_itr] holds, one for each object returned.  They are
    the x-monotone curves among the objects returned when [obj_itr] is read
    as [obj_it]; when [*obj_itr] is an isolated point, the x-monotone curve
    that [make_x_monotone_2] returns for the segment from (0,0) to (4,4) is
    not collected. *)
Theorem insert_curves_collects_by_obj_itr :
  (∀ (Tr : Traits_2) (Envelope_diagram_1 : Type)
     (Members : Declared_members Envelope_diagram_1)
     (Names : Undeclared_names) curves type st,
     insert_curves curves type st =
     insert_x_monotone_curves (collected_subcurves curves) type
       {| this := this st;
          diagram := diagram st;
          calls := calls st ++ map Call_make_x_monotone curves |}) ∧
  (∀ (Tr : Traits_2) (Names : Undeclared_names) curves,
     (∀ obj, obj_itr obj = obj) →
     collected_subcurves curves = x_monotone_subcurves curves) ∧
  (collected_subcurves (Names := Segment_traits.obj_itr_at_a_point)
     [Segment_traits.diagonal] = [] ∧
   x_monotone_subcurves (Tr := Segment_traits.segments)
     [Segment_traits.diagonal] = [Segment_traits.diagonal]).
Proof.
  split; [|split].
  - intros Tr D Members Names curves type st. apply insert_curves_unfold.
  - intros Tr Names curves. apply collected_subcurves_obj_it.
  - split; reflexivity.
Qed.

(** ** The protected members *)

Section Protected_members_facts.

Context `{Tr : Traits_2}.
Context `{Names : !Undeclared_names}.
Variable _construct_singleton_diagram : X_monotone_curve_2 -> Diagram.
Variable _merge_envelopes : Envelope_type -> Diagram -> Diagram -> Diagram.
Variable merge_vertical_segments :
  Envelope_type -> list X_monotone_curve_2 -> Curve_pointer_list ->
  Diagram -> Diagram.
Variable compare_at_x : Edge -> Edge -> Interval -> Comparison_result.
Variable crossings : Edge -> Edge -> Interval -> list Point_2.

(** C7.  On an empty range [insert_x_monotone_curves] and [insert_curves]
    return (the functions are total), make no call to the vertical-segment
    merger, and leave the empty diagram: one unbounded edge with an empty
    curve set, and no vertex. *)
Theorem empty_range_gives_empty_diagram type (st : State Diagram) :
  let members :=
    driver_members _construct_singleton_diagram _merge_envelopes
      merge_vertical_segments in
  let st1 := insert_x_monotone_curves (Members := members) [] type st in
  let st2 := insert_curves (Members := members) [] type st in
  diagram st1 = empty_diagram ∧
  diagram st2 = empty_diagram ∧
  calls st1 = calls st ++ [Call_construct_envelope_non_vertical []] ∧
  calls st2 = calls st ++ [Call_construct_envelope_non_vertical []] ∧
  diagram_edges empty_diagram = [[]] ∧
  diagram_vertices empty_diagram = [].
Proof.
  cbv zeta. unfold insert_curves, insert_x_monotone_curves. simpl.
  unfold dereference. simpl. simp construct_envelope. done.
Qed.

Context `{Eq_curves : EqDecision X_monotone_curve_2}.









Context `{Co : !Coordinates}.

(** C5.  [_compare_vertices (v1, v2, same_x)] returns [SMALLER] exactly
    when x(v1) < x(v2), or x(v1) = x(v2) and either the envelope is the
    lower one and y(v1) < y(v2) or it is the upper one and y(v1) > y(v2);
    [LARGER] exactly under the mirrored conditions; [EQUAL] exactly when
    the two vertices are the same point; and [same_x] is set to true
    exactly when x(v1) = x(v2). *)
Theorem compare_vertices_contract this v1 v2 :
  let res := (_compare_vertices this v1 v2).1 in
  let same_x := (_compare_vertices this v1 v2).2 in
  (res = SMALLER ↔
     NT_lt (x_of v1) (x_of v2) ∨
     (x_of v1 = x_of v2 ∧
      ((env_type this = LOWER ∧ NT_lt (y_of v1) (y_of v2)) ∨
       (env_type this = UPPER ∧ NT_lt (y_of v2) (y_of v1))))) ∧
  (res = LARGER ↔
     NT_lt (x_of v2) (x_of v1) ∨
     (x_of v1 = x_of v2 ∧
      ((env_type this = LOWER ∧ NT_lt (y_of v2) (y_of v1)) ∨
       (env_type this = UPPER ∧ NT_lt (y_of v1) (y_of v2))))) ∧
  (res = EQUAL ↔ v1 = v2) ∧
  (same_x = true ↔ x_of v1 = x_of v2).
Proof.
  cbv zeta. unfold _compare_vertices.
  pose proof (compare_x_2_SMALLER v1 v2) as HxS.
  pose proof (compare_x_2_EQUAL v1 v2) as HxE.
  pose proof (compare_x_2_LARGER v1 v2) as HxL.
  pose proof (compare_xy_2_SMALLER v1 v2) as HyS.
  pose proof (compare_xy_2_EQUAL v1 v2) as HyE.
  pose proof (compare_xy_2_LARGER v1 v2) as HyL.
  assert (Hsame : v1 = v2 → x_of v1 = x_of v2) by (by intros ->).
  destruct (compare_x_2 v1 v2), (compare_xy_2 v1 v2),
    (env_type this); simpl; intuition congruence.
Qed.

End Protected_members_facts.

(** ** Ownership of the traits object *)

Module Ownership_facts.

Import Ownership.

Lemma invariant_initial : invariant initial_world.
Proof.
  split; unfold owners_have_distinct_traits; simpl.
  - intros i s Hi. by rewrite lookup_empty in Hi.
  - intros i j si sj _ Hi. by rewrite lookup_empty in Hi.
  - by intros p ?%elem_of_nil.
  - constructor.
  - intros i s Hi. by rewrite lookup_empty in Hi.
Qed.

Lemma invariant_constructor_default w :
  invariant w → invariant (step w Op_constructor_default).
Proof.
  intros [Hfresh Hdist Hbound Hnodup Hlive].
  split; unfold owners_have_distinct_traits; simpl.
  - intros i s. rewrite lookup_insert. case_decide as Hi.
    + intros [= <-] _. simpl. split; [lia|].
      intros Hin%Hbound. lia.
    + intros Hs Hown. destruct (Hfresh i s Hs Hown). split; [lia|done].
  - intros i j si sj Hij. rewrite !lookup_insert.
    repeat case_decide; subst; try done.
    + intros [= <-] Hj _ Hown. simpl.
      destruct (Hfresh j sj Hj Hown). lia.
    + intros Hi [= <-] Hown _. simpl.
      destruct (Hfresh i si Hi Hown). lia.
    + by apply Hdist.
  - intros p Hp%Hbound. lia.
  - done.
  - intros i s. rewrite lookup_insert. case_decide; subst; [lia|].
    intros Hi%Hlive. lia.
Qed.

Lemma invariant_constructor_traits w _traits :
  invariant w → invariant (step w (Op_constructor_traits _traits)).
Proof.
  intros [Hfresh Hdist Hbound Hnodup Hlive].
  split; unfold owners_have_distinct_traits; simpl.
  - intros i s. rewrite lookup_insert. case_decide as Hi.
    + by intros [= <-].
    + apply Hfresh.
  - intros i j si sj Hij. rewrite !lookup_insert.
    repeat case_decide; subst; try done.
    + by intros [= <-].
    + by intros _ [= <-].
    + by apply Hdist.
  - done.
  - done.
  - intros i s. rewrite lookup_insert. case_decide; subst; [lia|].
    intros Hi%Hlive. lia.
Qed.

Lemma invariant_destructor w obj :
  invariant w → invariant (step w (Op_destructor obj)).
Proof.
  intros Hinv. pose proof Hinv as [Hfresh Hdist Hbound Hnodup Hlive].
  simpl. destruct (live w !! obj) as [s|] eqn:Hobj; [|done].
  unfold destructor. destruct (own_traits s) eqn:Hown.
  - destruct (Hfresh obj s Hobj Hown) as [Hlt Hnew].
    split; unfold owners_have_distinct_traits; simpl.
    + intros i si. rewrite lookup_delete. case_decide as Hi; [done|].
      intros Hsi Howni. destruct (Hfresh i si Hsi Howni) as [? Hnotin].
      split; [done|]. rewrite elem_of_app, list_elem_of_singleton.
      intros [?|Heq]; [done|].
      by apply (Hdist i obj si s).
    + intros i j si sj Hij. rewrite !lookup_delete.
      repeat case_decide; try done. by apply Hdist.
    + intros p. rewrite elem_of_app, list_elem_of_singleton.
      intros [?%Hbound| ->]; done.
    + apply NoDup_app. split; [done|]. split; [|apply NoDup_singleton].
      intros p Hp ->%list_elem_of_singleton. done.
    + intros i si. rewrite lookup_delete. case_decide; [done|].
      apply Hlive.
  - split; unfold owners_have_distinct_traits; simpl; try done.
    + intros i si. rewrite lookup_delete. case_decide; [done|].
      apply Hfresh.
    + intros i j si sj Hij. rewrite !lookup_delete.
      repeat case_decide; try done. by apply Hdist.
    + intros i si. rewrite lookup_delete. case_decide; [done|].
      apply Hlive.
Qed.

Lemma lookup_alter_set_env_type (m : gmap nat Self) type obj i s :
  alter (set_env_type type) obj m !! i = Some s →
  ∃ s', m !! i = Some s' ∧
        traits s = traits s' ∧ own_traits s = own_traits s'.
Proof.
  rewrite lookup_alter. case_decide; subst.
  - destruct (m !! i) as [s'|]; [|done].
    intros [= <-]. by exists s'.
  - intros Hs. by exists s.
Qed.

Lemma invariant_insert w obj type :
  invariant w →
  invariant
    {| heap := heap w;
       live := alter (set_env_type type) obj (live w);
       next_obj := next_obj w |}.
Proof.
  intros [Hfresh Hdist Hbound Hnodup Hlive].
  split; unfold owners_have_distinct_traits; simpl; try done.
  - intros i s (s' & Hs' & -> & ->)%lookup_alter_set_env_type.
    by apply (Hfresh i).
  - intros i j si sj Hij
      (si' & Hsi' & -> & ->)%lookup_alter_set_env_type
      (sj' & Hsj' & -> & ->)%lookup_alter_set_env_type.
    by apply (Hdist i j).
  - intros i s (s' & Hs' & _)%lookup_alter_set_env_type.
    by eapply Hlive.
Qed.

Lemma invariant_step w op : invariant w → invariant (step w op).
Proof.
  destruct op.
  - apply invariant_constructor_default.
  - apply invariant_constructor_traits.
  - apply invariant_destructor.
  - apply invariant_insert.
  - apply invariant_insert.
  - done.
Qed.

Lemma invariant_fold ops : ∀ w,
  invariant w → invariant (fold_left step ops w).
Proof.
  induction ops as [|op ops IH]; intros w Hw; simpl; [done|].
  by apply IH, invariant_step.
Qed.

End Ownership_facts.

Module Ownership_theorems.

Import Ownership Ownership_facts.

(** C8.  An object built by the default constructor owns the traits object
    that the constructor allocates, and its destructor deletes that
    object, and only it.  An object built from a traits pointer stores the
    pointer, does not own it, and its destructor deletes nothing.  In both
    cases [get_traits] returns the stored pointer. *)
Theorem traits_ownership :
  (∀ h,
     let obj := (constructor_default h).1 in
     let h1 := (constructor_default h).2 in
     own_traits obj = true ∧
     traits obj = next_addr h ∧
     allocated h1 = {[traits obj]} ∪ allocated h ∧
     deleted h1 = deleted h ∧
     get_traits obj = traits obj ∧
     deleted (destructor obj h1) = deleted h1 ++ [traits obj] ∧
     traits obj ∉ allocated (destructor obj h1)) ∧
  (∀ _traits h,
     let obj := (constructor_traits _traits h).1 in
     let h1 := (constructor_traits _traits h).2 in
     own_traits obj = false ∧
     h1 = h ∧
     get_traits obj = _traits ∧
     destructor obj h1 = h1).
Proof.
  split.
  - intros h. simpl. repeat split.
    rewrite elem_of_difference, elem_of_singleton. by intros [_ Hne].
  - intros _traits h. simpl. done.
Qed.

(** C9, as the claim states it, fails: after [borrowing_program] the
    second object holds the traits pointer of the first, which owns it. *)
Lemma borrower_shares_owned_traits :
  ¬ owned_traits_never_shared (run borrowing_program).
Proof.
  intros Hnever.
  apply (Hnever 0 1
           {| traits := 0; own_traits := true; env_type := LOWER |}
           {| traits := 0; own_traits := false; env_type := LOWER |});
    done.
Qed.

(** C9, amended.  The public interface has no operation that copies or
    assigns an object, and in every world that a client program reaches
    through it, no two live owning objects have the same traits pointer
    and no traits object is deleted twice. *)
Theorem owners_never_share_traits ops :
  owners_have_distinct_traits (run ops) ∧ deleted_at_most_once (run ops).
Proof.
  destruct (invariant_fold ops initial_world invariant_initial)
    as [_ Hdist _ Hnodup _].
  by split.
Qed.

End Ownership_theorems.

(** ** The functor [Vertical_strict_weak_ordering] *)

(** C1.  The functor answers [true] for every pair of segments, whatever
    their x-coordinates.  On the vertical segment at x = 3 taken twice it
    answers [true] although the x-coordinate of the segment is not smaller
    than itself: the functor is not irreflexive, hence not the ordering by
    x-coordinate that it is documented to be. *)
Theorem Vertical_strict_weak_ordering_always_true :
  (∀ (Tr : Traits_2) (mcv1 mcv2 : M_curve_2),
     Vertical_strict_weak_ordering mcv1 mcv2 = true) ∧
  (let mcv :=
     @mkM_curve_2 Segment_traits.segments Segment_traits.vertical_at_3 in
   Vertical_strict_weak_ordering mcv mcv = true ∧ ¬ smaller_x mcv mcv).
Proof.
  split; [reflexivity|].
  split; [reflexivity|].
  unfold smaller_x. simpl. discriminate.
Qed.

(** ** Instances of the conditional statements *)

Module Segment_traits_instances.

Import Segment_traits.

(** C10 on a range of two segments that are not vertical, for the upper
    envelope. *)
Lemma insert_x_monotone_curves_no_vertical_witness :
  Forall (λ xcv, is_vertical_2 xcv = false) [diagonal; horizontal] ∧
  calls
    (insert_x_monotone_curves (Members := members)
       [diagonal; horizontal] UPPER start) =
    [Call_construct_envelope_non_vertical [0; 1]] ∧
  diagram
    (insert_x_monotone_curves (Members := members)
       [diagonal; horizontal] UPPER start) =
    _construct_envelope_non_vertical (Declared_members := members)
      UPPER [diagonal; horizontal] [0; 1] empty_diagram.
Proof.
  assert (Hnone : Forall (λ xcv, is_vertical_2 xcv = false)
                    [diagonal; horizontal])
    by (repeat constructor).
  split; [exact Hnone|].
  destruct (insert_x_monotone_curves_no_vertical (Members := members)
              [diagonal; horizontal] UPPER start Hnone)
    as (Hcalls & _ & Hdiagram).
  split; [exact Hcalls | exact Hdiagram].
Defined.


(** Two runs of [_merge_two_intervals] on the same two edges, with a
    crossing at (2,2) and a next vertex at (4,4).  When the edges compare
    as equal on both sides of the crossing, the two sub-intervals make one
    edge, with the curves of both, and no vertex is left at the crossing.
    When they compare as equal to its left only, the crossing is a
    vertex. *)
Example merge_two_intervals_runs :
  _merge_two_intervals equal_everywhere crossing_at_2 algorithm
    [diagonal] true [horizontal] true (4, 4)%Z true 1 empty_diagram =
    {| d_left := [([diagonal; horizontal], (4, 4)%Z)]; d_rightmost := [] |} ∧
  _merge_two_intervals equal_left_of_2 crossing_at_2 algorithm
    [diagonal] true [horizontal] true (4, 4)%Z true 1 empty_diagram =
    {| d_left := [([diagonal; horizontal], (2, 2)%Z);
                  ([diagonal], (4, 4)%Z)];
       d_rightmost := [] |}.
Proof. split; reflexivity. Qed.

(** C5 on the vertices (2,0) and (2,5), for the lower envelope: same x,
    and the first has the smaller y. *)
Lemma compare_vertices_contract_witness :
  _compare_vertices algorithm (2, 0)%Z (2, 5)%Z = (SMALLER, true) ∧
  ((_compare_vertices algorithm (2, 0)%Z (2, 5)%Z).1 = SMALLER ↔
     (2 < 2)%Z ∨
     (2%Z = 2%Z ∧
      ((LOWER = LOWER ∧ (0 < 5)%Z) ∨ (LOWER = UPPER ∧ (5 < 0)%Z)))).
Proof.
  split; [reflexivity|].
  exact (proj1 (compare_vertices_contract (Co := coordinates)
                  algorithm (2, 0)%Z (2, 5)%Z)).
Defined.

(** A run of [insert_curves], with [obj_itr] read as [obj_it], for the
    lower envelope on four curves, one of them a single point and one a
    vertical segment: the point is dropped, the two regular curves go to
    the driver and the vertical one to the vertical-segment merger. *)
Example insert_curves_run :
  let st :=
    insert_curves (Members := members) (Names := obj_itr_as_obj_it)
      [diagonal; ((1, 1), (1, 1))%Z; vertical_at_3; horizontal] LOWER start in
  calls st =
    [Call_make_x_monotone diagonal;
     Call_make_x_monotone ((1, 1), (1, 1))%Z;
     Call_make_x_monotone vertical_at_3;
     Call_make_x_monotone horizontal;
     Call_construct_envelope_non_vertical [0; 2];
     Call_merge_vertical_segments [1]] ∧
  diagram st =
    {| d_left := [([], (0, 0)%Z); ([diagonal], (4, 4)%Z);
                  ([], (0, 5)%Z); ([horizontal], (10, 5)%Z)];
       d_rightmost := [vertical_at_3] |}.
Proof. split; reflexivity. Qed.

End Segment_traits_instances.

(** ** More on [insert_x_monotone_curves] and [insert_curves] *)

Section Construction_more.

Context `{Tr : Traits_2} {Envelope_diagram_1 : Type}.
Context `{Members : !Declared_members Envelope_diagram_1}.
Context `{Names : !Undeclared_names}.

Lemma positions_point_to keep rest : ∀ before,
  Forall2 (λ p xcv, (before ++ rest) !! p = Some xcv)
    (positions keep (length before) rest) (List.filter keep rest).
Proof.
  induction rest as [|xcv rest IH]; intros before; simpl; [constructor|].
  specialize (IH (before ++ [xcv])).
  rewrite <- app_assoc, length_app in IH. simpl in IH.
  rewrite Nat.add_1_r in IH.
  destruct (keep xcv); [|exact IH].
  constructor; [|exact IH].
  rewrite lookup_app_r by lia. by rewrite Nat.sub_diag.
Qed.

Lemma positions_length rest : ∀ iter,
  length (positions regular iter rest) +
  length (positions is_vertical_2 iter rest) = length rest.
Proof.
  induction rest as [|xcv rest IH]; intros iter; simpl; [done|].
  unfold regular at 1. specialize (IH (S iter)).
  destruct (is_vertical_2 xcv); simpl; lia.
Qed.

Lemma positions_upper_bound keep rest : ∀ iter p,
  p ∈ positions keep iter rest → p < iter + length rest.
Proof.
  intros iter p (Hle & xcv & Hx & _)%elem_of_positions.
  apply lookup_lt_Some in Hx. lia.
Qed.

Lemma positions_increasing keep rest : ∀ iter a b p q,
  a < b →
  positions keep iter rest !! a = Some p →
  positions keep iter rest !! b = Some q →
  p < q.
Proof.
  induction rest as [|xcv rest IH]; intros iter a b p q Hab; simpl; [done|].
  destruct (keep xcv); [|by apply IH].
  destruct b as [|b]; [lia|]. simpl.
  destruct a as [|a]; simpl.
  - intros [= <-] Hq.
    apply list_elem_of_lookup_2, positions_lower_bound in Hq. lia.
  - apply IH. lia.
Qed.

Lemma positions_nil keep rest iter :
  positions keep iter rest = [] ↔ Forall (λ xcv, keep xcv = false) rest.
Proof.
  split; [|apply positions_none].
  revert iter. induction rest as [|xcv rest IH]; intros iter; simpl.
  - constructor.
  - destruct (keep xcv) eqn:Hk; [done|].
    intros Hnil. constructor; [done|]. by eapply IH.
Qed.

Lemma insert_x_monotone_curves_diagram range type st1 st2 :
  diagram st1 = diagram st2 →
  diagram (insert_x_monotone_curves range type st1) =
  diagram (insert_x_monotone_curves range type st2).
Proof.
  intros Heq. rewrite !insert_x_monotone_curves_unfold. cbv zeta.
  rewrite Heq. by destruct (0 <? _).
Qed.

(** X1.  Entry by entry, the pointers of [reg_list] point to the curves
    of the range that are not vertical, in the order of the range, and
    those of [vert_list] to its vertical curves, in that order.  Every
    pointer points into the range, no pointer occurs twice, and the two
    lists together have as many pointers as the range has curves: no curve
    is lost or repeated. *)
Theorem separate_dereference range :
  let reg_list := (separate 0 range [] []).1 in
  let vert_list := (separate 0 range [] []).2 in
  Forall2 (λ p xcv, range !! p = Some xcv) reg_list
    (List.filter (λ xcv, negb (is_vertical_2 xcv)) range) ∧
  Forall2 (λ p xcv, range !! p = Some xcv) vert_list
    (List.filter is_vertical_2 range) ∧
  NoDup (reg_list ++ vert_list) ∧
  length reg_list + length vert_list = length range.
Proof.
  cbv zeta. rewrite separate_positions. simpl.
  split; [apply (positions_point_to regular range [])|].
  split; [apply (positions_point_to is_vertical_2 range [])|].
  split; [|apply positions_length].
  apply NoDup_app. split; [apply NoDup_positions|].
  split; [|apply NoDup_positions].
  intros p (_ & xr & Hr & Hreg)%elem_of_positions
           (_ & xv & Hv & Hvert)%elem_of_positions.
  rewrite Hr in Hv. injection Hv as ->.
  unfold regular in Hreg. rewrite Hvert in Hreg. discriminate.
Qed.

(** X2.  Each of the two pointer lists holds pointers to curves of the
    range, in the order in which the loop meets the curves ([push_back]
    keeps it): of two entries of a list, the earlier one points to the
    curve that comes earlier in the range.  (A pointer is given by the
    position of its curve in the range, so [p < q] compares positions, not
    addresses.) *)
Theorem separate_ordered range :
  let reg_list := (separate 0 range [] []).1 in
  let vert_list := (separate 0 range [] []).2 in
  (∀ p, p ∈ reg_list ++ vert_list → p < length range) ∧
  (∀ a b p q, a < b → reg_list !! a = Some p → reg_list !! b = Some q →
              p < q) ∧
  (∀ a b p q, a < b → vert_list !! a = Some p → vert_list !! b = Some q →
              p < q).
Proof.
  cbv zeta. rewrite separate_positions. simpl.
  split; [|split].
  - intros p [Hp|Hp]%elem_of_app;
      apply positions_upper_bound in Hp; lia.
  - apply positions_increasing.
  - apply positions_increasing.
Qed.

(** X3.  [insert_x_monotone_curves] calls [_merge_vertical_segments]
    exactly when some curve of the range is vertical. *)
Theorem merge_vertical_segments_called_iff range type st :
  (∃ vert_list,
     Call_merge_vertical_segments vert_list ∈
     drop (length (calls st))
       (calls (insert_x_monotone_curves range type st))) ↔
  Exists (λ xcv, is_vertical_2 xcv = true) range.
Proof.
  rewrite insert_x_monotone_curves_unfold. cbv zeta.
  destruct (positions is_vertical_2 0 range) as [|p vert_list] eqn:Hpos;
    simpl.
  - rewrite drop_app_length. split.
    + intros (l & Hin%list_elem_of_singleton). discriminate.
    + intros Hex. apply positions_nil in Hpos.
      apply Exists_exists in Hex as (xcv & Hin & Htrue).
      rewrite Forall_forall in Hpos.
      specialize (Hpos xcv Hin). congruence.
  - rewrite <- app_assoc, drop_app_length. split.
    + intros _.
      assert (Hp : p ∈ positions is_vertical_2 0 range)
        by (rewrite Hpos; apply list_elem_of_here).
      apply elem_of_positions in Hp as (_ & xcv & Hx & Htrue).
      apply Exists_exists. exists xcv. split; [|done].
      by eapply list_elem_of_lookup_2.
    + intros _. exists (p :: vert_list).
      apply list_elem_of_further, list_elem_of_here.
Qed.

(** X4.  When every curve of a range that is not empty is vertical,
    [insert_x_monotone_curves] calls [_construct_envelope_non_vertical] on
    the empty list first, and then [_merge_vertical_segments] with the
    pointers to all the curves, on the diagram that the first call
    returned. *)
Theorem insert_x_monotone_curves_all_vertical range type st :
  range ≠ [] →
  Forall (λ xcv, is_vertical_2 xcv = true) range →
  calls (insert_x_monotone_curves range type st) =
    calls st ++
    [Call_construct_envelope_non_vertical [];
     Call_merge_vertical_segments (seq 0 (length range))] ∧
  diagram (insert_x_monotone_curves range type st) =
    _merge_vertical_segments type range (seq 0 (length range))
      (_construct_envelope_non_vertical type range [] (diagram st)).
Proof.
  intros Hne Hall.
  rewrite insert_x_monotone_curves_unfold. cbv zeta.
  rewrite (positions_all is_vertical_2 range 0 Hall).
  rewrite (positions_none regular range 0).
  2: { eapply Forall_impl; [exact Hall|]. intros xcv Hx. unfold regular.
       by rewrite Hx. }
  rewrite length_seq.
  destruct range as [|xcv range]; [done|]. simpl.
  by rewrite <- app_assoc.
Qed.

(** X5.  Both insert functions record the requested envelope type in the
    object before anything else, so the type with which the object was
    last used plays no part: the outcome of a call is the same whatever
    [env_type] was before it. *)
Theorem env_type_overwritten range curves type type0 st :
  let st0 :=
    {| this := set_env_type type0 (this st);
       diagram := diagram st;
       calls := calls st |} in
  env_type (this (insert_x_monotone_curves range type st)) = type ∧
  env_type (this (insert_curves curves type st)) = type ∧
  insert_x_monotone_curves range type st0 =
    insert_x_monotone_curves range type st ∧
  insert_curves curves type st0 = insert_curves curves type st.
Proof.
  cbv zeta.
  rewrite insert_x_monotone_curves_this, insert_curves_this.
  split; [done|]. split; [done|].
  unfold insert_curves. rewrite !insert_x_monotone_curves_unfold.
  simpl. rewrite subdivide_flat_map. simpl.
  by rewrite !insert_x_monotone_curves_unfold.
Qed.

End Construction_more.

(** ** More on the ownership of the traits object *)

Module Ownership_store_facts.

Import Ownership Ownership_store Ownership_facts.

Lemma store_invariant_initial : store_invariant initial_world.
Proof.
  split; simpl.
  - intros p. split; [by intros ?%elem_of_empty|].
    intros (i & s & Hs & _). simpl in Hs. by rewrite lookup_empty in Hs.
  - intros p. split; [lia|].
    intros [?%elem_of_empty|?%elem_of_nil]; done.
Qed.

Lemma owned_by_insert_fresh w h s p i :
  live w !! next_obj w = None →
  owned_by
    {| heap := h; live := <[next_obj w := s]> (live w);
       next_obj := S (next_obj w) |} p i ↔
  (i = next_obj w ∧ own_traits s = true ∧ traits s = p) ∨ owned_by w p i.
Proof.
  intros Hfresh. unfold owned_by. simpl. split.
  - intros (s' & Hs' & Hown & Hp). rewrite lookup_insert in Hs'.
    case_decide as Hi.
    + injection Hs' as <-. left. by subst.
    + right. by exists s'.
  - intros [(-> & Hown & Hp)|(s' & Hs' & Hown & Hp)].
    + exists s. by rewrite lookup_insert_eq.
    + exists s'. split; [|done]. rewrite lookup_insert_ne; [done|].
      intros <-. congruence.
Qed.

Lemma live_fresh w : invariant w → live w !! next_obj w = None.
Proof.
  intros Hinv. destruct (live w !! next_obj w) as [s|] eqn:Hs; [|done].
  apply (inv_live_bound w Hinv) in Hs. lia.
Qed.

Lemma store_invariant_step w op :
  invariant w → store_invariant w → store_invariant (step w op).
Proof.
  intros Hinv [Halloc Hacc]. pose proof (live_fresh w Hinv) as Hnew.
  destruct op as [|_traits|obj|obj type|obj type|obj]; simpl; [| | | | |done].
  - (* the default constructor *)
    split; simpl.
    + intros p. rewrite elem_of_union, elem_of_singleton, Halloc.
      setoid_rewrite (owned_by_insert_fresh w _ _ p _ Hnew). simpl.
      split.
      * intros [->|(i & Hi)].
        -- exists (next_obj w). by left.
        -- exists i. by right.
      * intros (i & [(_ & _ & Hp)|Hi]).
        -- by left.
        -- right. by exists i.
    + intros p. rewrite elem_of_union, elem_of_singleton.
      specialize (Hacc p). split.
      * intros Hlt. destruct (decide (p = next_addr (heap w))) as [->|Hne].
        -- by left; left.
        -- destruct (proj1 Hacc) as [?|?]; [lia| |]; [left; by right|by right].
      * intros [[->|Hp]|Hp]; [lia| |].
        -- assert (p < next_addr (heap w)) by (apply Hacc; by left). lia.
        -- assert (p < next_addr (heap w)) by (apply Hacc; by right). lia.
  - (* the constructor with a traits object *)
    split; simpl; [|done].
    intros p. rewrite Halloc.
    setoid_rewrite (owned_by_insert_fresh w _ _ p _ Hnew). simpl.
    split.
    + intros (i & Hi). exists i. by right.
    + intros (i & [(_ & Hown & _)|Hi]); [done|]. by exists i.
  - (* the destructor *)
    destruct (live w !! obj) as [s|] eqn:Hobj; [|done].
    unfold destructor. destruct (own_traits s) eqn:Hown.
    + assert (Hs : traits s ∈ allocated (heap w)).
      { apply Halloc. exists obj, s. done. }
      split; simpl.
      * intros p. rewrite elem_of_difference, elem_of_singleton, Halloc.
        unfold owned_by. simpl. split.
        -- intros [(i & si & Hsi & Howni & Hp) Hne]. exists i, si.
           split; [|done]. rewrite lookup_delete_ne; [done|].
           intros <-. congruence.
        -- intros (i & si & Hsi & Howni & Hp).
           rewrite lookup_delete in Hsi. case_decide as Hi; [done|].
           split; [by exists i, si|]. subst p.
           apply (inv_distinct w Hinv i obj si s); done.
      * intros p. rewrite elem_of_difference, elem_of_singleton,
          elem_of_app, list_elem_of_singleton.
        specialize (Hacc p). split.
        -- intros Hlt. destruct (decide (p = traits s)) as [->|Hne].
           ++ by right; right.
           ++ destruct (proj1 Hacc Hlt) as [?|?]; [by left|by right; left].
        -- intros [[Hp _]|[Hp| ->]]; apply Hacc; auto.
    + split; simpl; [|done].
      intros p. rewrite Halloc. unfold owned_by. simpl. split.
      * intros (i & si & Hsi & Howni & Hp). exists i, si.
        split; [|done]. rewrite lookup_delete_ne; [done|].
        intros <-. congruence.
      * intros (i & si & Hsi & Howni & Hp).
        rewrite lookup_delete in Hsi. case_decide; [done|].
        by exists i, si.
  - (* insert_curves *)
    split; simpl; [|done].
    intros p. rewrite Halloc. unfold owned_by. simpl. split.
    + intros (i & s & Hs & Hown & Hp).
      exists i. rewrite lookup_alter. case_decide; subst.
      * exists (set_env_type type s). by rewrite Hs.
      * by exists s.
    + intros (i & s & (s' & Hs' & Ht & Ho)%lookup_alter_set_env_type
                & Hown & Hp).
      exists i, s'. by rewrite <- Ht, <- Ho.
  - (* insert_x_monotone_curves *)
    split; simpl; [|done].
    intros p. rewrite Halloc. unfold owned_by. simpl. split.
    + intros (i & s & Hs & Hown & Hp).
      exists i. rewrite lookup_alter. case_decide; subst.
      * exists (set_env_type type s). by rewrite Hs.
      * by exists s.
    + intros (i & s & (s' & Hs' & Ht & Ho)%lookup_alter_set_env_type
                & Hown & Hp).
      exists i, s'. by rewrite <- Ht, <- Ho.
Qed.

Lemma store_invariant_fold ops : ∀ w,
  invariant w → store_invariant w →
  store_invariant (fold_left step ops w).
Proof.
  induction ops as [|op ops IH]; intros w Hinv Hstore; simpl; [done|].
  apply IH; [by apply invariant_step | by apply store_invariant_step].
Qed.

Lemma store_invariant_run ops : store_invariant (run ops).
Proof.
  apply store_invariant_fold;
    [apply invariant_initial | apply store_invariant_initial].
Qed.

Lemma invariant_run ops : invariant (run ops).
Proof. apply invariant_fold, invariant_initial. Qed.

End Ownership_store_facts.

Module Ownership_store_theorems.

Import Ownership Ownership_store Ownership_facts Ownership_store_facts.

Lemma step_next_obj w op : next_obj w ≤ next_obj (step w op).
Proof.
  destruct op; simpl; try lia.
  destruct (live w !! obj); simpl; lia.
Qed.

Lemma step_live_same w op i s s' :
  invariant w →
  live w !! i = Some s → live (step w op) !! i = Some s' →
  traits s' = traits s ∧ own_traits s' = own_traits s.
Proof.
  intros Hinv Hs.
  pose proof (inv_live_bound w Hinv i s Hs) as Hlt.
  destruct op as [|_traits|obj|obj type|obj type|obj]; simpl.
  - rewrite lookup_insert_ne by lia. rewrite Hs. by intros [= <-].
  - rewrite lookup_insert_ne by lia. rewrite Hs. by intros [= <-].
  - destruct (live w !! obj) eqn:Hobj; simpl.
    + rewrite lookup_delete. case_decide; [done|].
      rewrite Hs. by intros [= <-].
    + rewrite Hs. by intros [= <-].
  - intros (s0 & Hs0 & ? & ?)%lookup_alter_set_env_type.
    rewrite Hs in Hs0. by injection Hs0 as <-.
  - intros (s0 & Hs0 & ? & ?)%lookup_alter_set_env_type.
    rewrite Hs in Hs0. by injection Hs0 as <-.
  - rewrite Hs. by intros [= <-].
Qed.

Lemma step_stays_dead w op i :
  i < next_obj w → live w !! i = None → live (step w op) !! i = None.
Proof.
  intros Hlt Hnone.
  destruct op as [|_traits|obj|obj type|obj type|obj]; simpl.
  - by rewrite lookup_insert_ne by lia.
  - by rewrite lookup_insert_ne by lia.
  - destruct (live w !! obj) eqn:Hobj; simpl; [|done].
    rewrite lookup_delete. by case_decide.
  - rewrite lookup_alter. case_decide; subst; by rewrite Hnone.
  - rewrite lookup_alter. case_decide; subst; by rewrite Hnone.
  - done.
Qed.

Lemma fold_stays_dead ops i : ∀ w,
  i < next_obj w → live w !! i = None →
  live (fold_left step ops w) !! i = None.
Proof.
  induction ops as [|op ops IH]; intros w Hlt Hnone; simpl; [done|].
  apply IH; [|by apply step_stays_dead].
  pose proof (step_next_obj w op). lia.
Qed.

Lemma fold_live_same ops i s' : ∀ w s,
  invariant w →
  live w !! i = Some s → live (fold_left step ops w) !! i = Some s' →
  traits s' = traits s ∧ own_traits s' = own_traits s.
Proof.
  induction ops as [|op ops IH]; intros w s Hinv Hs; simpl.
  - rewrite Hs. by intros [= <-].
  - intros Hs'.
    pose proof (inv_live_bound w Hinv i s Hs) as Hlt.
    pose proof (step_next_obj w op) as Hmono.
    destruct (live (step w op) !! i) as [s1|] eqn:Hs1.
    + destruct (step_live_same w op i s s1 Hinv Hs Hs1) as [<- <-].
      by apply (IH (step w op) s1); [apply invariant_step|..].
    + rewrite fold_stays_dead in Hs'; [done|lia|done].
Qed.

Lemma step_only_borrows w op :
  op ≠ Op_constructor_default →
  (∀ i s, live w !! i = Some s → own_traits s = false) →
  heap (step w op) = heap w ∧
  (∀ i s, live (step w op) !! i = Some s → own_traits s = false).
Proof.
  intros Hop Hnone.
  destruct op as [|_traits|obj|obj type|obj type|obj]; simpl; [done|..].
  - split; [done|]. intros i s. rewrite lookup_insert.
    case_decide; [by intros [= <-]|apply Hnone].
  - destruct (live w !! obj) as [s0|] eqn:Hobj; simpl; [|done].
    unfold destructor. rewrite (Hnone obj s0 Hobj).
    split; [done|]. intros i s. rewrite lookup_delete.
    case_decide; [done|apply Hnone].
  - split; [done|].
    intros i s (s0 & Hs0 & _ & ->)%lookup_alter_set_env_type.
    by eapply Hnone.
  - split; [done|].
    intros i s (s0 & Hs0 & _ & ->)%lookup_alter_set_env_type.
    by eapply Hnone.
  - done.
Qed.

Lemma fold_only_borrows ops : ∀ w,
  only_borrows ops →
  (∀ i s, live w !! i = Some s → own_traits s = false) →
  heap (fold_left step ops w) = heap w.
Proof.
  induction ops as [|op ops IH]; intros w Hops Hnone; simpl; [done|].
  inversion Hops as [|? ? Hop Hrest]; subst.
  destruct (step_only_borrows w op Hop Hnone) as [Hheap Hnone'].
  rewrite IH; done.
Qed.

(** X8.  After any program over the public interface, the traits objects
    that are allocated are exactly those owned by a live object: none is
    deleted while its owner lives and none outlives its owner.  So when no
    object is left, no traits object is. *)
Theorem allocated_exactly_owned ops :
  (∀ p, p ∈ allocated (heap (run ops)) ↔ ∃ i, owned_by (run ops) p i) ∧
  (live (run ops) = ∅ → allocated (heap (run ops)) = ∅).
Proof.
  destruct (store_invariant_run ops) as [Halloc _].
  split; [exact Halloc|].
  intros Hempty. apply set_eq. intros p. rewrite Halloc. split.
  - intros (i & s & Hs & _). rewrite Hempty, lookup_empty in Hs. done.
  - by intros ?%elem_of_empty.
Qed.


(** X10.  An object keeps its traits pointer and its ownership flag for
    life: whatever the program does between two moments at which the
    object is live, [get_traits] returns the same pointer at both. *)
Theorem traits_pointer_stable ops ops' i s s' :
  live (run ops) !! i = Some s →
  live (run (ops ++ ops')) !! i = Some s' →
  get_traits s' = get_traits s ∧ own_traits s' = own_traits s.
Proof.
  unfold run. rewrite fold_left_app. intros Hs Hs'.
  by apply (fold_live_same ops' i s' (fold_left step ops initial_world) s);
    [apply invariant_run|..].
Qed.

(** X11.  A program that never calls the default constructor leaves the
    free store as it found it: objects built from a traits pointer neither
    allocate nor delete, whatever is done with them. *)
Theorem borrowers_leave_store ops :
  only_borrows ops → heap (run ops) = heap initial_world.
Proof.
  intros Hops. apply fold_only_borrows; [done|].
  intros i s Hs. simpl in Hs. by rewrite lookup_empty in Hs.
Qed.

End Ownership_store_theorems.

(** ** More instances of the conditional statements *)

Module Segment_traits_more_instances.

Import Segment_traits Ownership Ownership_store.

(** X4 on a range of one vertical segment. *)
Lemma insert_x_monotone_curves_all_vertical_witness :
  [vertical_at_3] ≠ [] ∧
  Forall (λ xcv, is_vertical_2 xcv = true) [vertical_at_3] ∧
  calls
    (insert_x_monotone_curves (Members := members)
       [vertical_at_3] LOWER start) =
    [Call_construct_envelope_non_vertical [];
     Call_merge_vertical_segments [0]].
Proof.
  assert (Hne : [vertical_at_3] ≠ []) by discriminate.
  assert (Hall : Forall (λ xcv, is_vertical_2 xcv = true) [vertical_at_3])
    by (repeat constructor).
  split; [exact Hne|]. split; [exact Hall|].
  exact (proj1 (insert_x_monotone_curves_all_vertical (Members := members)
                  [vertical_at_3] LOWER start Hne Hall)).
Defined.

(** X10 on an object built by the default constructor, before and after a
    call of [insert_curves] for the upper envelope. *)
Lemma traits_pointer_stable_witness :
  live (run [Op_constructor_default]) !! 0 = Some algorithm ∧
  live (run ([Op_constructor_default] ++ [Op_insert_curves 0 UPPER])) !! 0 =
    Some (set_env_type UPPER algorithm) ∧
  get_traits (set_env_type UPPER algorithm) = get_traits algorithm.
Proof.
  split; [reflexivity|]. split; [reflexivity|].
  exact (proj1 (Ownership_store_theorems.traits_pointer_stable
                  [Op_constructor_default] [Op_insert_curves 0 UPPER] 0
                  algorithm (set_env_type UPPER algorithm)
                  eq_refl eq_refl)).
Defined.

(** X11 on a program that builds an object from the pointer [7], uses it
    and destroys it. *)
Lemma borrowers_leave_store_witness :
  only_borrows
    [Op_constructor_traits 7; Op_insert_curves 0 UPPER; Op_destructor 0] ∧
  heap (run [Op_constructor_traits 7; Op_insert_curves 0 UPPER;
             Op_destructor 0]) = heap initial_world.
Proof.
  assert (Hops : only_borrows
                   [Op_constructor_traits 7; Op_insert_curves 0 UPPER;
                    Op_destructor 0])
    by (repeat constructor; discriminate).
  split; [exact Hops|].
  exact (Ownership_store_theorems.borrowers_leave_store _ Hops).
Defined.

End Segment_traits_more_instances.
